(** * Deterministic daily counter of the landing page

  Shallow embedding of the "Deterministic daily counter" block of
  [src/app/home/page.tsx]: [hashStringToSeed], [mulberry32],
  [countEventsByT], the constants [MIN_GAP_SECONDS] / [MAX_GAP_SECONDS]
  and the pure part of the [update] closure of [HomePage]; and of what
  surrounds it on the page: [formatNumber], [getLocalDateKey],
  [secondsSinceMidnight], [randInt], [randomItem] and the feed.

  Numbers.  A JavaScript number that holds an integer is a [Z]; the
  conversions the bitwise operators and [Math.imul] apply to their operands
  ([ToInt32], [ToUint32]) are written out.  The quotient returned by the
  generator and its product with the width of the gap range are exact
  rationals ([Q]).  Integer arithmetic on doubles is exact below [2^53];
  [safe_integer_day] records that a whole day of the counter stays below
  that bound. *)

From Stdlib Require Import ZArith QArith Qround List Lia Bool Ascii String.
From Stdlib Require DecimalPos DecimalN.
From Stdlib Require Import Sorted Permutation.
Import ListNotations.

Local Open Scope Z_scope.

(** ** JavaScript 32-bit integer operators *)

Module JS.

Definition two32 : Z := 4294967296.
Definition two31 : Z := 2147483648.

(** [ToUint32]: the value modulo 2^32. *)
Definition ToUint32 (x : Z) : Z := x mod two32.

(** [ToInt32]: the value modulo 2^32, read as a signed 32-bit integer. *)
Definition ToInt32 (x : Z) : Z :=
  let u := x mod two32 in
  if u <? two31 then u else u - two32.

(** [a ^ b] *)
Definition xor (a b : Z) : Z := ToInt32 (Z.lxor (ToUint32 a) (ToUint32 b)).

(** [a | b] *)
Definition or (a b : Z) : Z := ToInt32 (Z.lor (ToUint32 a) (ToUint32 b)).

(** [a >>> n]: zero-fill right shift, the count taken modulo 32. *)
Definition ushr (a n : Z) : Z := Z.shiftr (ToUint32 a) (Z.land n 31).

(** [Math.imul(a, b)] *)
Definition imul (a b : Z) : Z := ToInt32 (ToInt32 a * ToInt32 b).

(** A string is the sequence of its UTF-16 code units, which is what
    [str.length] and [str.charCodeAt(i)] observe. *)
Definition jsstring : Type := list Z.

Definition code_unit (c : Z) : Prop := 0 <= c < 65536.

Definition wf_string (s : jsstring) : Prop := Forall code_unit s.

(** The code units of a string literal whose characters are all below 256. *)
Fixpoint of_string (s : string) : jsstring :=
  match s with
  | EmptyString => []
  | String c rest => Z.of_nat (nat_of_ascii c) :: of_string rest
  end.

End JS.

(** ** [hashStringToSeed] *)

Module Hash.

(** One turn of the [for] loop of [hashStringToSeed]:
    [h ^= str.charCodeAt(i); h = Math.imul(h, 16777619);] *)
Definition hash_step (h c : Z) : Z := JS.imul (JS.xor h c) 16777619.

(** [hashStringToSeed(str)]: the loop runs over the code units in order,
    from [h = 2166136261]; the result is [h >>> 0]. *)
Definition hashStringToSeed (str : JS.jsstring) : Z :=
  JS.ushr (fold_left hash_step str 2166136261) 0.

(** FNV-1a over 32 bits as the specification words it: the accumulator
    starts at 2166136261; each character code is XORed into it and the
    accumulator is multiplied by 16777619, the product wrapped to 32 bits. *)
Definition fnv_offset_basis : Z := 2166136261.
Definition fnv_prime : Z := 16777619.

Definition fnv1a32_step (acc c : Z) : Z :=
  (Z.lxor acc c * fnv_prime) mod 2 ^ 32.

Definition fnv1a32 (codes : list Z) : Z :=
  fold_left fnv1a32_step codes fnv_offset_basis.

End Hash.

(** ** [mulberry32] *)

Module Rng.

(** The closure returned by [mulberry32(seed)] owns the variable [seed] and
    updates it on every call.  One call is a function from the value of
    that variable to the number returned and the new value of the
    variable.  [seed += 0x6d2b79f5] is an addition of numbers: it is not
    wrapped. *)
Definition mulberry32_bits (seed : Z) : Z * Z :=
  let seed := seed + 1831565813 in
  let t := seed in
  let t := JS.imul (JS.xor t (JS.ushr t 15)) (JS.or t 1) in
  let t := JS.xor t (t + JS.imul (JS.xor t (JS.ushr t 7)) (JS.or t 61)) in
  (JS.ushr (JS.xor t (JS.ushr t 14)) 0, seed).

(** The value returned: [(... >>> 0) / 4294967296]. *)
Definition mulberry32 (seed : Z) : Q * Z :=
  let (u, seed) := mulberry32_bits seed in
  (Qmake u 4294967296, seed).

End Rng.

(** ** [countEventsByT] *)

Module Counter.

(** [minGap + Math.floor(rng() * (maxGap - minGap + 1))], together with the
    generator's new state. *)
Definition drawGap (seed minGap maxGap : Z) : Z * Z :=
  let (r, seed) := Rng.mulberry32 seed in
  (minGap + Qfloor (r * inject_Z (maxGap - minGap + 1)), seed).

(** The [while (true)] loop.  Its variables are the generator's state, [t]
    and [count]; [fuel] bounds the number of turns, and [None] means the
    loop was still running when the fuel ran out. *)
Fixpoint loop (fuel : nat) (seed t count T minGap maxGap : Z) : option Z :=
  match fuel with
  | O => None
  | S fuel =>
      let (gap, seed) := drawGap seed minGap maxGap in
      let t := t + gap in
      if t >? T then Some count
      else loop fuel seed t (count + 1) T minGap maxGap
  end.

Definition countEventsByT (fuel : nat) (seed T minGap maxGap : Z) : option Z :=
  loop fuel seed 0 0 T minGap maxGap.

(** The gaps the loop draws, in order, one per turn: the same recursion as
    [loop], keeping the gaps instead of the count. *)
Fixpoint gapsDrawn (fuel : nat) (seed t T minGap maxGap : Z) : list Z :=
  match fuel with
  | O => []
  | S fuel =>
      let (gap, seed) := drawGap seed minGap maxGap in
      let t := t + gap in
      gap :: (if t >? T then [] else gapsDrawn fuel seed t T minGap maxGap)
  end.

(** Whatever the state of the generator, the gap drawn is at least one
    second. *)
Definition positive_gaps (minGap maxGap : Z) : Prop :=
  forall seed, 1 <= fst (drawGap seed minGap maxGap).

(** A number of turns that is enough for the loop to leave when every gap is at
    least one second: [T + 1]. *)
Definition fuel_for (T : Z) : nat := S (Z.to_nat T).

Definition MIN_GAP_SECONDS : Z := 1.
Definition MAX_GAP_SECONDS : Z := 60.

Definition counter_namespace : JS.jsstring :=
  JS.of_string "beyond-january-daily-counter-".

(** The template literal [`beyond-january-daily-counter-${dateKey}`]. *)
Definition seedOfDateKey (dateKey : JS.jsstring) : Z :=
  Hash.hashStringToSeed (counter_namespace ++ dateKey).

(** The counter pipeline with the bounds as arguments
    ([computeEventCount] of the specification). *)
Definition computeEventCount (fuel : nat) (dateKey : JS.jsstring)
    (T minGap maxGap : Z) : option Z :=
  countEventsByT fuel (seedOfDateKey dateKey) T minGap maxGap.

(** The value the [update] closure of [HomePage] hands to [setCount], as a
    function of the two readings it takes from the clock. *)
Definition update (fuel : nat) (dateKey : JS.jsstring) (T : Z) : option Z :=
  let seed := Hash.hashStringToSeed (counter_namespace ++ dateKey) in
  countEventsByT fuel seed T MIN_GAP_SECONDS MAX_GAP_SECONDS.

(** The domain the specification gives to the bounds: positive integers
    with [minGap <= maxGap]. *)
Definition validBounds (minGap maxGap : Z) : bool :=
  (1 <=? minGap) && (minGap <=? maxGap).

End Counter.

(** ** Arrival times *)

Module Schedule.

(** The time of the event that closes a list of gaps: their sum, as the loop
    of [countEventsByT] accumulates it in [t]. *)
Definition arrival (gaps : list Z) : Z := fold_right Z.add 0 gaps.

End Schedule.

(** ** The generator with a 32-bit state *)

Module Rng32.

(** Mulberry32 as the specification describes it, with a state of 32 bits
    that each call advances by the increment: the same mixing as
    [Rng.mulberry32_bits], the sum wrapped. *)
Definition mulberry32_wrapped (state : Z) : Z * Z :=
  let state := JS.ToUint32 (state + 1831565813) in
  let t := state in
  let t := JS.imul (JS.xor t (JS.ushr t 15)) (JS.or t 1) in
  let t := JS.xor t (t + JS.imul (JS.xor t (JS.ushr t 7)) (JS.or t 61)) in
  (JS.ushr (JS.xor t (JS.ushr t 14)) 0, state).

(** The first [n] results of a generator given as a step function. *)
Fixpoint outputs (step : Z -> Z * Z) (n : nat) (state : Z) : list Z :=
  match n with
  | O => []
  | S n => let (u, state) := step state in u :: outputs step n state
  end.

End Rng32.

(** ** Numbers as text: [formatNumber], [getLocalDateKey] *)

Module Text.

(** The code units of a decimal numeral. *)
Fixpoint digits (d : Decimal.uint) : JS.jsstring :=
  match d with
  | Decimal.Nil => []
  | Decimal.D0 d => 48 :: digits d
  | Decimal.D1 d => 49 :: digits d
  | Decimal.D2 d => 50 :: digits d
  | Decimal.D3 d => 51 :: digits d
  | Decimal.D4 d => 52 :: digits d
  | Decimal.D5 d => 53 :: digits d
  | Decimal.D6 d => 54 :: digits d
  | Decimal.D7 d => 55 :: digits d
  | Decimal.D8 d => 56 :: digits d
  | Decimal.D9 d => 57 :: digits d
  end.

(** [n.toString()], [String(n)] and [`${n}`] for an integer [n] that a
    number holds exactly (below 2^53 in absolute value): the decimal
    numeral, behind a minus sign when [n] is negative. *)
Definition Number_toString (n : Z) : JS.jsstring :=
  if n <? 0 then 45 :: digits (N.to_uint (Z.to_N (- n)))
  else digits (N.to_uint (Z.to_N n)).

(** [\d] *)
Definition is_digit (c : Z) : bool := (48 <=? c) && (c <=? 57).

(** [\w]: a letter of the basic alphabet, a digit or the underscore. *)
Definition is_word (c : Z) : bool :=
  is_digit c || ((65 <=? c) && (c <=? 90)) || ((97 <=? c) && (c <=? 122))
  || (c =? 95).

(** Whether the position before or after the end of the input, or the
    character there, counts as a word character. *)
Definition word_at (c : option Z) : bool :=
  match c with
  | Some c => is_word c
  | None => false
  end.

(** [\B]: the two sides of the position are alike. *)
Definition nonWordBoundary (before after : option Z) : bool :=
  Bool.eqb (word_at before) (word_at after).

(** [(?!\d)] *)
Definition noDigitAhead (s : JS.jsstring) : bool :=
  match s with
  | c :: _ => negb (is_digit c)
  | [] => true
  end.

(** [(\d{3})+(?!\d)] matched at the head of [s]: three digits, then either
    more groups of three or no digit. *)
Fixpoint digitGroups (s : JS.jsstring) : bool :=
  match s with
  | d1 :: d2 :: d3 :: rest =>
      is_digit d1 && is_digit d2 && is_digit d3
      && (digitGroups rest || noDigitAhead rest)
  | _ => false
  end.

(** [/\B(?=(\d{3})+(?!\d))/] at the position between [before] and [s]. *)
Definition separatorHere (before : option Z) (s : JS.jsstring) : bool :=
  nonWordBoundary before (hd_error s) && digitGroups s.

(** [.replace(/\B(?=(\d{3})+(?!\d))/g, ",")]: the pattern matches the empty
    string, so every position of the input is tried once, from left to
    right, and a comma goes in where it matches. *)
Fixpoint replaceSeparators (before : option Z) (s : JS.jsstring)
  : JS.jsstring :=
  (if separatorHere before s then [44] else [])
  ++ match s with
     | [] => []
     | c :: rest => c :: replaceSeparators (Some c) rest
     end.

(** [formatNumber(n)] *)
Definition formatNumber (n : Z) : JS.jsstring :=
  replaceSeparators None (Number_toString n).

(** [s.padStart(targetLength, c)] for a filler [c] of one character. *)
Definition padStart (s : JS.jsstring) (targetLength : nat) (c : Z)
  : JS.jsstring :=
  repeat c (targetLength - List.length s) ++ s.

(** [getLocalDateKey(d)], as a function of [d.getFullYear()],
    [d.getMonth()] (from 0) and [d.getDate()]. *)
Definition getLocalDateKey (fullYear month date : Z) : JS.jsstring :=
  let y := fullYear in
  let m := padStart (Number_toString (month + 1)) 2 48 in
  let day := padStart (Number_toString date) 2 48 in
  Number_toString y ++ [45] ++ m ++ [45] ++ day.

(** The decimal value of two digits, the reading of a month or a day of a
    date key. *)
Definition twoDigitValue (s : JS.jsstring) : Z :=
  match s with
  | [c1; c2] => 10 * (c1 - 48) + (c2 - 48)
  | _ => -1
  end.

(** [P] holds of the [n] integers from [start] on. *)
Fixpoint all_from (P : Z -> bool) (n : nat) (start : Z) : bool :=
  match n with
  | O => true
  | S n => P start && all_from P n (start + 1)
  end.

(** The characters that are not the separator. *)
Definition withoutSeparators (s : JS.jsstring) : JS.jsstring :=
  filter (fun c => negb (c =? 44)) s.

(** [secondsSinceMidnight(now)], as a function of [now.getTime()] and of the
    [getTime()] of the same date after [setHours(0, 0, 0, 0)]. *)
Definition secondsSinceMidnight (nowTime midnightTime : Z) : Z :=
  (nowTime - midnightTime) / 1000.

End Text.

(** ** What the page shows *)

Module Page.

(** The count the [update] closure of [HomePage] computes, as a function of
    what it reads from [now]: the three fields of the local date and the two
    times [secondsSinceMidnight] subtracts. *)
Definition displayedCount (fuel : nat) (fullYear month date : Z)
    (nowTime midnightTime : Z) : option Z :=
  let dateKey := Text.getLocalDateKey fullYear month date in
  let T := Text.secondsSinceMidnight nowTime midnightTime in
  Counter.update fuel dateKey T.

End Page.

(** ** The feed of [HomePage] *)

Module Feed.

Inductive Status : Type := complete | partial | checked_in.

(** A [FeedItem].  [status] and [goal] come from [randomItem], which returns
    [undefined] on an empty array: [None]. *)
Record FeedItem : Type := mkItem {
  id : JS.jsstring;
  status : option Status;
  goal : option JS.jsstring;
  secondsAgo : Z
}.

Definition GOAL_SNIPPETS : list JS.jsstring :=
  map JS.of_string
    [ "Drink water"; "Run or walk"; "Stretch"; "Read 10 pages";
      "Practice a skill"; "Journal"; "Meditate"; "Study session";
      "Cook a real meal"; "Early bedtime"; "Clean one thing"; "Call family";
      "Work on my project"; "Plan tomorrow"; "Show up anyway" ]%string.

Definition STATUSES : list Status := [complete; partial; checked_in].

(** [{ ...x, secondsAgo: s }] *)
Definition withSecondsAgo (x : FeedItem) (s : Z) : FeedItem :=
  mkItem (id x) (status x) (goal x) s.

(** [a === b] on strings. *)
Definition sameString (a b : JS.jsstring) : bool :=
  if list_eq_dec Z.eq_dec a b then true else false.

Section WithRandom.

(** [random k] is the number the call number [k] of [Math.random()]
    returns. *)
Variable random : nat -> Q.

(** A computation that calls [Math.random()]: from the number of calls made
    so far to a result and the number of calls made after it. *)
Definition Rand (A : Type) : Type := nat -> A * nat.

Definition ret {A : Type} (a : A) : Rand A := fun k => (a, k).

Definition bind {A B : Type} (c : Rand A) (f : A -> Rand B) : Rand B :=
  fun k => let (a, k') := c k in f a k'.

Local Notation "x <- c ;; f" := (bind c (fun x => f))
  (at level 61, c at next level, right associativity).

(** [Math.random()] *)
Definition nextRandom : Rand Q := fun k => (random k, S k).

(** [randInt(min, max)]: [Math.floor(Math.random() * (max - min + 1)) + min],
    the product taken exactly. *)
Definition randInt (min max : Z) : Rand Z :=
  r <- nextRandom ;;
  ret (Qfloor (r * inject_Z (max - min + 1)) + min).

(** [randomItem(arr)]: [arr[Math.floor(Math.random() * arr.length)]]. *)
Definition randomItem {A : Type} (arr : list A) : Rand (option A) :=
  r <- nextRandom ;;
  let i := Qfloor (r * inject_Z (Z.of_nat (List.length arr))) in
  ret (if i <? 0 then None else nth_error arr (Z.to_nat i)).

(** [arr.map(f)] for an [f] that calls [Math.random()]: the elements are
    visited from left to right. *)
Fixpoint mapRand {A B : Type} (f : A -> Rand B) (arr : list A)
  : Rand (list B) :=
  match arr with
  | [] => ret []
  | x :: rest => y <- f x ;; ys <- mapRand f rest ;; ret (y :: ys)
  end.

(** The [for] loop of the initializer of [feed], from [i] for [n] turns. *)
Fixpoint initialItems (n : nat) (i : Z) : Rand (list FeedItem) :=
  match n with
  | O => ret []
  | S n =>
      st <- randomItem STATUSES ;;
      g <- randomItem GOAL_SNIPPETS ;;
      s <- randInt 12 360 ;;
      rest <- initialItems n (i + 1) ;;
      ret (mkItem (JS.of_string "seed-" ++ Text.Number_toString i) st g s
           :: rest)
  end.

(** [arr.sort((a, b) => a.secondsAgo - b.secondsAgo)]: the sort is stable,
    so an item goes before the first one that is not younger. *)
Fixpoint insertBySecondsAgo (x : FeedItem) (sorted : list FeedItem)
  : list FeedItem :=
  match sorted with
  | [] => [x]
  | y :: rest =>
      if secondsAgo x <=? secondsAgo y then x :: sorted
      else y :: insertBySecondsAgo x rest
  end.

Definition sortBySecondsAgo (arr : list FeedItem) : list FeedItem :=
  fold_right insertBySecondsAgo [] arr.

(** The initial value of [feed]. *)
Definition initialFeed : Rand (list FeedItem) :=
  initial <- initialItems 8 0 ;;
  ret (sortBySecondsAgo initial).

(** The callback of [map] when an item comes in. *)
Definition ageAfterArrival (item x : FeedItem) : Rand FeedItem :=
  if sameString (id x) (id item) then ret (withSecondsAgo x 1)
  else k <- randInt 2 6 ;;
       ret (withSecondsAgo x (Z.min (secondsAgo x + k) 999)).

(** The callback of [map] when none comes in. *)
Definition ageQuietly (x : FeedItem) : FeedItem :=
  withSecondsAgo x (Z.min (secondsAgo x + 2) 999).

(** One turn of the interval of the feed: the new value of [feed] from the
    old one, [dateNow] being what [Date.now()] returns.  [r < 0.32] is
    decided on the rationals; no double lies between 8/25 and the double
    written [0.32]. *)
Definition feedTick (dateNow : Z) (prev : list FeedItem)
  : Rand (list FeedItem) :=
  r <- nextRandom ;;
  if negb (Qle_bool (32 # 100) r) then
    st <- randomItem STATUSES ;;
    g <- randomItem GOAL_SNIPPETS ;;
    let item :=
      mkItem (JS.of_string "live-" ++ Text.Number_toString dateNow) st g 1 in
    aged <- mapRand (ageAfterArrival item) (item :: prev) ;;
    ret (firstn 10 aged)
  else ret (map ageQuietly prev).

(** The feed after the turns whose [Date.now()] are [dateNows], in order. *)
Fixpoint feedAfter (dateNows : list Z) (feed : list FeedItem)
  : Rand (list FeedItem) :=
  match dateNows with
  | [] => ret feed
  | dateNow :: later =>
      next <- feedTick dateNow feed ;; feedAfter later next
  end.

(** The feed of a page whose interval has fired at [dateNows]. *)
Definition feedOfPage (dateNows : list Z) : Rand (list FeedItem) :=
  feed <- initialFeed ;; feedAfter dateNows feed.

End WithRandom.

(** Every number [Math.random()] returns is in [0, 1). *)
Definition unit_interval (random : nat -> Q) : Prop :=
  forall k, (0 <= random k)%Q /\ (random k < 1)%Q.

(** An item without its age. *)
Definition entry (x : FeedItem)
  : JS.jsstring * option Status * option JS.jsstring :=
  (id x, status x, goal x).

(** The ids of the initial items, [seed-0] to [seed-7]. *)
Definition seedIds : list JS.jsstring :=
  map (fun i => JS.of_string "seed-" ++ Text.Number_toString i)
      [0; 1; 2; 3; 4; 5; 6; 7].

(** The order of the initial feed: the younger item first. *)
Definition youngerFirst (a b : FeedItem) : Prop :=
  secondsAgo a <= secondsAgo b.

(** An item as the initializer makes it. *)
Definition freshItem (x : FeedItem) : Prop :=
  12 <= secondsAgo x <= 360
  /\ (exists st, status x = Some st /\ In st STATUSES)
  /\ (exists g, goal x = Some g /\ In g GOAL_SNIPPETS).

(** [y] is [x] grown older by [lo] to [hi] seconds, 999 at most. *)
Definition agedBy (lo hi : Z) (x y : FeedItem) : Prop :=
  entry y = entry x
  /\ exists j, lo <= j <= hi /\ secondsAgo y = Z.min (secondsAgo x + j) 999.

(** The id of an item that comes in when [Date.now()] is [dateNow]. *)
Definition liveId (dateNow : Z) : JS.jsstring :=
  JS.of_string "live-" ++ Text.Number_toString dateNow.

(** What the page relies on for every item it shows. *)
Definition shown (x : FeedItem) : Prop :=
  1 <= secondsAgo x <= 999
  /\ (exists st, status x = Some st /\ In st STATUSES)
  /\ (exists g, goal x = Some g /\ In g GOAL_SNIPPETS).

End Feed.

(** * Properties *)

(** ** The 32-bit conversions *)

Module JSFacts.
Import JS.

Lemma ToUint32_range (x : Z) : 0 <= ToUint32 x < two32.
Proof. unfold ToUint32, two32. apply Z.mod_pos_bound. lia. Qed.

Lemma ToInt32_range (x : Z) : - two31 <= ToInt32 x < two31.
Proof.
  unfold ToInt32. pose proof (ToUint32_range x) as H.
  unfold ToUint32, two32 in H. unfold two31, two32.
  destruct (Z.ltb_spec (x mod 4294967296) 2147483648); lia.
Qed.

(** [ToInt32] only changes the representative of the class modulo 2^32. *)
Lemma ToUint32_ToInt32 (x : Z) : ToUint32 (ToInt32 x) = ToUint32 x.
Proof.
  unfold ToInt32, ToUint32.
  destruct (Z.ltb_spec (x mod two32) two31).
  - apply Z.mod_mod. unfold two32. lia.
  - replace (x mod two32 - two32) with (x mod two32 + (-1) * two32) by lia.
    rewrite Z.mod_add by (unfold two32; lia).
    apply Z.mod_mod. unfold two32. lia.
Qed.

Lemma ToUint32_small (x : Z) : 0 <= x < two32 -> ToUint32 x = x.
Proof. intros H. unfold ToUint32. apply Z.mod_small. exact H. Qed.

Lemma ushr_0 (a : Z) : ushr a 0 = ToUint32 a.
Proof. unfold ushr. change (Z.land 0 31) with 0. apply Z.shiftr_0_r. Qed.

Lemma two32_pow : two32 = 2 ^ 32.
Proof. reflexivity. Qed.

(** XOR commutes with truncation to 32 bits. *)
Lemma lxor_mod_two32 (a b : Z) :
  Z.lxor a b mod two32 = Z.lxor (a mod two32) (b mod two32).
Proof.
  rewrite two32_pow. apply Z.bits_inj'. intros n Hn.
  rewrite Z.lxor_spec.
  destruct (Z.lt_ge_cases n 32) as [Hlo | Hhi].
  - rewrite !Z.mod_pow2_bits_low by lia. apply Z.lxor_spec.
  - rewrite !Z.mod_pow2_bits_high by lia. reflexivity.
Qed.

Lemma ToUint32_xor (a b : Z) : ToUint32 (xor a b) = Z.lxor a b mod two32.
Proof.
  unfold xor. rewrite ToUint32_ToInt32. unfold ToUint32.
  rewrite lxor_mod_two32, !Z.mod_mod by (unfold two32; lia).
  symmetry. apply lxor_mod_two32.
Qed.

Lemma ToUint32_imul (a b : Z) : ToUint32 (imul a b) = (a * b) mod two32.
Proof.
  unfold imul. rewrite ToUint32_ToInt32. unfold ToUint32.
  rewrite Z.mul_mod by (unfold two32; lia).
  fold (ToUint32 (ToInt32 a)). fold (ToUint32 (ToInt32 b)).
  rewrite !ToUint32_ToInt32. unfold ToUint32.
  symmetry. apply Z.mul_mod. unfold two32. lia.
Qed.

(** A string literal is a well-formed string. *)
Lemma of_string_wf (s : string) : wf_string (of_string s).
Proof.
  induction s as [| c s IH]; constructor.
  - unfold code_unit. pose proof (nat_ascii_bounded c). lia.
  - exact IH.
Qed.

End JSFacts.

(** ** The seed is the FNV-1a hash *)

Module HashFacts.
Import JS JSFacts Hash.

Lemma hash_step_fnv (h c : Z) :
  ToUint32 (hash_step h c) = fnv1a32_step (ToUint32 h) c.
Proof.
  unfold hash_step, fnv1a32_step, fnv_prime.
  rewrite ToUint32_imul, <- two32_pow.
  rewrite Z.mul_mod by (unfold two32; lia).
  fold (ToUint32 (xor h c)). rewrite ToUint32_xor.
  rewrite (Z.mul_mod (Z.lxor (ToUint32 h) c)) by (unfold two32; lia).
  rewrite (lxor_mod_two32 h c), (lxor_mod_two32 (ToUint32 h) c).
  unfold ToUint32. rewrite Z.mod_mod by (unfold two32; lia).
  reflexivity.
Qed.

Lemma fold_hash_fnv (str : jsstring) :
  forall h, ToUint32 (fold_left hash_step str h)
            = fold_left fnv1a32_step str (ToUint32 h).
Proof.
  induction str as [| c str IH]; intros h; simpl.
  - reflexivity.
  - rewrite IH, hash_step_fnv. reflexivity.
Qed.

Lemma hashStringToSeed_fold (str : jsstring) :
  hashStringToSeed str = fnv1a32 str.
Proof.
  unfold hashStringToSeed, fnv1a32, fnv_offset_basis.
  rewrite ushr_0, fold_hash_fnv. reflexivity.
Qed.

Lemma hashStringToSeed_range (str : jsstring) :
  0 <= hashStringToSeed str < 2 ^ 32.
Proof.
  unfold hashStringToSeed. rewrite ushr_0, <- two32_pow.
  apply ToUint32_range.
Qed.

(** C5. For every string, [hashStringToSeed] returns the 32-bit FNV-1a hash
    of its character codes (accumulator from 2166136261, each code XORed in,
    then a multiplication by 16777619 wrapped to 32 bits), and the value is
    an unsigned integer in [0, 2^32).  The seed is a function of the code
    units alone, so equal strings give the equal seed. *)
Theorem hashStringToSeed_is_fnv1a32 (str : jsstring) :
  hashStringToSeed str = fnv1a32 str
  /\ 0 <= hashStringToSeed str < 2 ^ 32.
Proof.
  split.
  - apply hashStringToSeed_fold.
  - apply hashStringToSeed_range.
Qed.

End HashFacts.

(** ** The generator *)

Module RngFacts.
Import JS JSFacts Rng.

Lemma mulberry32_bits_range (seed : Z) :
  0 <= fst (mulberry32_bits seed) < two32.
Proof.
  unfold mulberry32_bits. cbv zeta. cbn [fst].
  rewrite ushr_0. apply ToUint32_range.
Qed.

Lemma mulberry32_bits_state (seed : Z) :
  snd (mulberry32_bits seed) = seed + 1831565813.
Proof. reflexivity. Qed.

Lemma mulberry32_fst (seed : Z) :
  fst (mulberry32 seed) = Qmake (fst (mulberry32_bits seed)) 4294967296.
Proof. unfold mulberry32. destruct (mulberry32_bits seed). reflexivity. Qed.

Lemma mulberry32_state (seed : Z) :
  snd (mulberry32 seed) = seed + 1831565813.
Proof.
  unfold mulberry32.
  pose proof (mulberry32_bits_state seed) as H.
  destruct (mulberry32_bits seed). exact H.
Qed.

(** Every number the generator returns lies in [0, 1). *)
Lemma mulberry32_unit_interval (seed : Z) :
  (0 <= fst (mulberry32 seed))%Q /\ (fst (mulberry32 seed) < 1)%Q.
Proof.
  rewrite mulberry32_fst.
  pose proof (mulberry32_bits_range seed) as H. unfold two32 in H.
  unfold Qle, Qlt. cbn [Qnum Qden]. lia.
Qed.

(** The variable of the closure after [n] calls. *)
Lemma mulberry32_state_iter (n : nat) (seed : Z) :
  Nat.iter n (fun s => snd (mulberry32 s)) seed
  = seed + Z.of_nat n * 1831565813.
Proof.
  induction n as [| n IH].
  - simpl. lia.
  - rewrite Nat.iter_succ, IH, mulberry32_state. lia.
Qed.

(** From a 32-bit seed, the 90001 calls that a day of at most 25 hours can
    need leave the variable below 2^53, where the additions are exact. *)
Lemma safe_integer_day (n : nat) (seed : Z) :
  0 <= seed < two32 -> Z.of_nat n <= 90001 ->
  0 <= Nat.iter n (fun s => snd (mulberry32 s)) seed < 2 ^ 53.
Proof.
  intros Hs Hn. rewrite mulberry32_state_iter. unfold two32 in Hs.
  change (2 ^ 53) with 9007199254740992. lia.
Qed.

End RngFacts.

(** ** The simulation loop *)

Module CounterFacts.
Import JS JSFacts Rng RngFacts Counter.

(** *** One draw *)

Lemma drawGap_fst (seed minGap maxGap : Z) :
  fst (drawGap seed minGap maxGap)
  = minGap + (fst (mulberry32_bits seed) * (maxGap - minGap + 1)) / two32.
Proof.
  unfold drawGap, mulberry32. destruct (mulberry32_bits seed) as [u s'].
  cbn [fst]. unfold Qfloor, Qmult, inject_Z. cbn [Qnum Qden].
  rewrite Pos.mul_1_r. reflexivity.
Qed.

Lemma drawGap_snd (seed minGap maxGap : Z) :
  snd (drawGap seed minGap maxGap) = seed + 1831565813.
Proof.
  unfold drawGap. pose proof (mulberry32_state seed) as H.
  destruct (mulberry32 seed). exact H.
Qed.

(** With [minGap <= maxGap] a gap lies in [minGap, maxGap]. *)
Lemma drawGap_range (seed minGap maxGap : Z) :
  minGap <= maxGap ->
  minGap <= fst (drawGap seed minGap maxGap) <= maxGap.
Proof.
  intros Hle. rewrite drawGap_fst.
  pose proof (mulberry32_bits_range seed) as Hu.
  set (u := fst (mulberry32_bits seed)) in *.
  set (k := maxGap - minGap + 1).
  assert (Hk : 1 <= k) by (unfold k; lia).
  assert (H0 : 0 <= u * k / two32).
  { apply Z.div_pos; [nia | unfold two32; lia]. }
  assert (H1 : u * k / two32 < k).
  { apply Z.div_lt_upper_bound; [unfold two32; lia | nia]. }
  unfold k in *. lia.
Qed.

(** With the bounds the wrong way round the width of the range is not
    positive, and a gap lies in [maxGap + 1, minGap]. *)
Lemma drawGap_range_inverted (seed minGap maxGap : Z) :
  maxGap < minGap ->
  maxGap + 1 <= fst (drawGap seed minGap maxGap) <= minGap.
Proof.
  intros Hlt. rewrite drawGap_fst.
  pose proof (mulberry32_bits_range seed) as Hu.
  set (u := fst (mulberry32_bits seed)) in *.
  set (k := maxGap - minGap + 1).
  assert (Hk : k <= 0) by (unfold k; lia).
  assert (H0 : k <= u * k / two32).
  { apply Z.div_le_lower_bound; [unfold two32; lia | nia]. }
  assert (H1 : u * k / two32 <= 0).
  { apply Z.div_le_upper_bound; [unfold two32; lia | nia]. }
  unfold k in *. lia.
Qed.

Lemma positive_gaps_intro (minGap maxGap : Z) :
  1 <= minGap -> 0 <= maxGap -> positive_gaps minGap maxGap.
Proof.
  intros Hmin Hmax seed.
  destruct (Z.le_gt_cases minGap maxGap) as [Hle | Hgt].
  - pose proof (drawGap_range seed minGap maxGap Hle). lia.
  - pose proof (drawGap_range_inverted seed minGap maxGap Hgt). lia.
Qed.

Lemma positive_gaps_valid (minGap maxGap : Z) :
  1 <= minGap <= maxGap -> positive_gaps minGap maxGap.
Proof. intros H. apply positive_gaps_intro; lia. Qed.

(** *** The loop *)

Lemma loop_S (fuel : nat) (seed t count T minGap maxGap : Z) :
  loop (S fuel) seed t count T minGap maxGap
  = if t + fst (drawGap seed minGap maxGap) >? T then Some count
    else loop fuel (snd (drawGap seed minGap maxGap))
                   (t + fst (drawGap seed minGap maxGap))
                   (count + 1) T minGap maxGap.
Proof. simpl. destruct (drawGap seed minGap maxGap). reflexivity. Qed.

Ltac loop_turn H :=
  rewrite loop_S in H;
  match type of H with
  | context [?a >? ?b] => destruct (Z.gtb_spec a b)
  end.

Section Loop.
Variables minGap maxGap : Z.

(** The counter only grows. *)
Lemma loop_ge_count (fuel : nat) :
  forall seed t count T r, loop fuel seed t count T minGap maxGap = Some r -> count <= r.
Proof.
  induction fuel as [| fuel IH]; intros seed t count T r H.
  - discriminate H.
  - loop_turn H.
    + injection H as <-. lia.
    + apply IH in H. lia.
Qed.

(** Turns that were not needed do not change the result. *)
Lemma loop_more_fuel (fuel : nat) :
  forall fuel' seed t count T r,
    loop fuel seed t count T minGap maxGap = Some r -> (fuel <= fuel')%nat ->
    loop fuel' seed t count T minGap maxGap = Some r.
Proof.
  induction fuel as [| fuel IH]; intros fuel' seed t count T r H Hle.
  - discriminate H.
  - destruct fuel' as [| fuel']; [lia |].
    rewrite loop_S in *.
    destruct (Z.gtb_spec (t + fst (drawGap seed minGap maxGap)) T).
    + exact H.
    + apply IH; [exact H | lia].
Qed.

Lemma loop_deterministic (fuel fuel' : nat) (seed t count T r r' : Z) :
  loop fuel seed t count T minGap maxGap = Some r -> loop fuel' seed t count T minGap maxGap = Some r' ->
  r = r'.
Proof.
  intros H H'.
  apply (loop_more_fuel fuel (Nat.max fuel fuel')) in H; [| lia].
  apply (loop_more_fuel fuel' (Nat.max fuel fuel')) in H'; [| lia].
  congruence.
Qed.

(** The count does not decrease when the clock reading does not. *)
Lemma loop_mono_T (fuel1 : nat) :
  forall fuel2 seed t count T1 T2 r1 r2,
    T1 <= T2 ->
    loop fuel1 seed t count T1 minGap maxGap = Some r1 ->
    loop fuel2 seed t count T2 minGap maxGap = Some r2 ->
    r1 <= r2.
Proof.
  induction fuel1 as [| fuel1 IH]; intros fuel2 seed t count T1 T2 r1 r2 HT H1 H2.
  - discriminate H1.
  - destruct fuel2 as [| fuel2]; [discriminate H2 |].
    loop_turn H1.
    + injection H1 as <-. apply loop_ge_count in H2. exact H2.
    + loop_turn H2; [lia |].
      exact (IH _ _ _ _ _ _ _ _ HT H1 H2).
Qed.

(** The longest gap bounds the count from below. *)
Lemma loop_lower (fuel : nat) :
  minGap <= maxGap ->
  forall seed t count T r,
    loop fuel seed t count T minGap maxGap = Some r -> T - t < (r - count + 1) * maxGap.
Proof.
  intros Hle. induction fuel as [| fuel IH]; intros seed t count T r H.
  - discriminate H.
  - pose proof (drawGap_range seed minGap maxGap Hle) as Hg.
    loop_turn H.
    + injection H as <-. lia.
    + apply IH in H. lia.
Qed.

Hypothesis gaps : positive_gaps minGap maxGap.

(** [T - t + 1] turns are enough. *)
Lemma loop_terminates (fuel : nat) :
  forall seed t count T,
    (0 < fuel)%nat -> T - t < Z.of_nat fuel ->
    exists r, loop fuel seed t count T minGap maxGap = Some r.
Proof.
  induction fuel as [| fuel IH]; intros seed t count T Hpos Hfuel.
  - lia.
  - rewrite loop_S. pose proof (gaps seed) as Hg.
    destruct (Z.gtb_spec (t + fst (drawGap seed minGap maxGap)) T).
    + exists count. reflexivity.
    + apply IH; lia.
Qed.

(** At most one event per second that is left. *)
Lemma loop_upper (fuel : nat) :
  forall seed t count T r,
    loop fuel seed t count T minGap maxGap = Some r -> r <= count + Z.max 0 (T - t).
Proof.
  induction fuel as [| fuel IH]; intros seed t count T r H.
  - discriminate H.
  - pose proof (gaps seed) as Hg. loop_turn H.
    + injection H as <-. lia.
    + apply IH in H. lia.
Qed.

(** One more second admits at most one more event. *)
Lemma loop_next_second (fuel1 : nat) :
  forall fuel2 seed t count T r1 r2,
    loop fuel1 seed t count T minGap maxGap = Some r1 ->
    loop fuel2 seed t count (T + 1) minGap maxGap = Some r2 ->
    r2 <= r1 + 1.
Proof.
  induction fuel1 as [| fuel1 IH]; intros fuel2 seed t count T r1 r2 H1 H2.
  - discriminate H1.
  - destruct fuel2 as [| fuel2]; [discriminate H2 |].
    pose proof (gaps seed) as Hg.
    loop_turn H1.
    + injection H1 as <-. loop_turn H2.
      * injection H2 as <-. lia.
      * apply loop_upper in H2. lia.
    + loop_turn H2; [lia |].
      exact (IH _ _ _ _ _ _ _ H1 H2).
Qed.

End Loop.

(** *** The gaps of a run *)

Lemma gapsDrawn_S (fuel : nat) (seed t T minGap maxGap : Z) :
  gapsDrawn (S fuel) seed t T minGap maxGap
  = fst (drawGap seed minGap maxGap)
    :: (if t + fst (drawGap seed minGap maxGap) >? T then []
        else gapsDrawn fuel (snd (drawGap seed minGap maxGap))
                       (t + fst (drawGap seed minGap maxGap)) T minGap maxGap).
Proof. simpl. destruct (drawGap seed minGap maxGap). reflexivity. Qed.

(** A run that returns [r] from [count] drew [r - count + 1] gaps: one for
    each event counted and the one that left the loop. *)
Lemma gapsDrawn_length (minGap maxGap : Z) (fuel : nat) :
  forall seed t count T r,
    loop fuel seed t count T minGap maxGap = Some r ->
    Z.of_nat (List.length (gapsDrawn fuel seed t T minGap maxGap)) = r - count + 1.
Proof.
  induction fuel as [| fuel IH]; intros seed t count T r H.
  - discriminate H.
  - rewrite gapsDrawn_S. loop_turn H.
    + injection H as <-. simpl. lia.
    + apply IH in H. cbn [List.length]. lia.
Qed.

Lemma gapsDrawn_in_range (minGap maxGap : Z) (fuel : nat) :
  minGap <= maxGap ->
  forall seed t T,
    Forall (fun gap => minGap <= gap <= maxGap)
           (gapsDrawn fuel seed t T minGap maxGap).
Proof.
  intros Hle. induction fuel as [| fuel IH]; intros seed t T.
  - constructor.
  - rewrite gapsDrawn_S. constructor.
    + apply drawGap_range. exact Hle.
    + destruct (_ >? _); [constructor | apply IH].
Qed.

(** The number of turns taken never exceeds [T - t + 1], whatever the fuel. *)
Lemma gapsDrawn_turns (minGap maxGap : Z) (fuel : nat) :
  positive_gaps minGap maxGap ->
  forall seed t T,
    Z.of_nat (List.length (gapsDrawn fuel seed t T minGap maxGap))
    <= Z.max 0 (T - t) + 1.
Proof.
  intros gaps. induction fuel as [| fuel IH]; intros seed t T.
  - simpl. lia.
  - rewrite gapsDrawn_S. pose proof (gaps seed) as Hg.
    destruct (Z.gtb_spec (t + fst (drawGap seed minGap maxGap)) T).
    + simpl. lia.
    + cbn [List.length].
      specialize (IH (snd (drawGap seed minGap maxGap))
                     (t + fst (drawGap seed minGap maxGap)) T).
      lia.
Qed.

(** *** [countEventsByT] *)

Lemma fuel_for_turns (T : Z) : 0 <= T -> Z.of_nat (fuel_for T) = T + 1.
Proof. intros H. unfold fuel_for. lia. Qed.

Lemma countEventsByT_returns (seed T minGap maxGap : Z) (fuel : nat) :
  positive_gaps minGap maxGap -> 0 <= T -> (fuel_for T <= fuel)%nat ->
  exists c, countEventsByT fuel seed T minGap maxGap = Some c.
Proof.
  intros gaps HT Hfuel. unfold countEventsByT.
  pose proof (fuel_for_turns T HT) as Hf.
  apply loop_terminates; [exact gaps | unfold fuel_for in Hfuel; lia | lia].
Qed.

End CounterFacts.

(** ** The contract of the counter *)

Module Contract.
Import JS JSFacts Hash HashFacts Rng RngFacts Counter CounterFacts.














(** C8. The example of the specification.  The seed of
    ["beyond-january-daily-counter-2026-01-15"] is its FNV-1a hash,
    2559132716; driving the generator from it with gaps in [1, 60] up to
    [T = 3600], [countEventsByT] returns 121, which lies between 60 and
    3600.  It is also what [update] computes for the date key ["2026-01-15"]
    one hour after midnight. *)
Theorem golden_value_2026_01_15 :
  let str := of_string "beyond-january-daily-counter-2026-01-15" in
  hashStringToSeed str = fnv1a32 str
  /\ hashStringToSeed str = 2559132716
  /\ countEventsByT (fuel_for 3600) (hashStringToSeed str) 3600 1 60 = Some 121
  /\ update (fuel_for 3600) (of_string "2026-01-15") 3600 = Some 121
  /\ 60 <= 121 <= 3600.
Proof.
  cbv zeta. split; [apply hashStringToSeed_fold |].
  split; [vm_compute; reflexivity |].
  split; [vm_compute; reflexivity |].
  split; [vm_compute; reflexivity | lia].
Qed.






End Contract.

(** ** More on the simulation: bounds, schedule, edge cases *)

Module CounterMore.
Import JS JSFacts Rng RngFacts Counter CounterFacts Schedule.

(** Every gap is at least [minGap], so [minGap] seconds pass per event. *)
Lemma loop_minGap (minGap maxGap : Z) (fuel : nat) :
  minGap <= maxGap ->
  forall seed t count T r,
    loop fuel seed t count T minGap maxGap = Some r ->
    (r - count) * minGap <= Z.max 0 (T - t).
Proof.
  intros Hle. induction fuel as [| fuel IH]; intros seed t count T r H.
  - discriminate H.
  - pose proof (drawGap_range seed minGap maxGap Hle) as Hg.
    loop_turn H.
    + injection H as <-. lia.
    + apply IH in H. lia.
Qed.





(** *** The count against the arrival times *)

Lemma gapsDrawn_nonempty (fuel : nat) (seed t T minGap maxGap : Z) :
  gapsDrawn (S fuel) seed t T minGap maxGap <> [].
Proof. rewrite gapsDrawn_S. discriminate. Qed.

Lemma loop_arrivals (minGap maxGap : Z) (fuel : nat) :
  forall seed t count T r,
    loop fuel seed t count T minGap maxGap = Some r -> t <= T ->
    t + arrival (removelast (gapsDrawn fuel seed t T minGap maxGap)) <= T
    /\ T < t + arrival (gapsDrawn fuel seed t T minGap maxGap).
Proof.
  induction fuel as [| fuel IH]; intros seed t count T r H Ht.
  - discriminate H.
  - rewrite gapsDrawn_S. unfold arrival in *. loop_turn H.
    + cbn [removelast fold_right]. lia.
    + destruct fuel as [| fuel]; [discriminate H |].
      set (rest := gapsDrawn (S fuel) _ _ T minGap maxGap).
      assert (Hne : rest <> []) by apply gapsDrawn_nonempty.
      destruct (IH _ _ _ _ _ H) as [Hlo Hhi]; [lia |]. fold rest in Hlo, Hhi.
      destruct rest as [| g rest']; [contradiction |].
      cbn [removelast fold_right] in *. lia.
Qed.





(** *** Edge cases of the bounds *)

Lemma loop_zero_gap (fuel : nat) :
  forall seed t count T, t <= T -> loop fuel seed t count T 0 0 = None.
Proof.
  induction fuel as [| fuel IH]; intros seed t count T Ht.
  - reflexivity.
  - rewrite loop_S.
    pose proof (drawGap_range seed 0 0 (Z.le_refl 0)) as Hg.
    destruct (Z.gtb_spec (t + fst (drawGap seed 0 0)) T); [lia |].
    apply IH. lia.
Qed.

(** X5. With [minGap = maxGap = 0] every gap is 0 and the loop never leaves:
    for [T >= 0] no number of turns makes the call return.  (The note above
    [countEventsByT]: 1..60 is used to avoid 0-second gaps.) *)
Theorem countEventsByT_zero_gap_diverges (fuel : nat) (seed T : Z) :
  0 <= T -> countEventsByT fuel seed T 0 0 = None.
Proof. intros HT. apply loop_zero_gap. exact HT. Qed.

Lemma countEventsByT_zero_gap_diverges_witness :
  0 <= 0 /\ countEventsByT 1000 2559132716 0 0 0 = None.
Proof.
  split; [lia |]. apply (countEventsByT_zero_gap_diverges 1000 2559132716 0). lia.
Defined.

(** X6. Before the shortest gap has passed nothing is counted: for
    [minGap <= maxGap] and [T < minGap] (any negative [T] among them when
    [minGap >= 0]) the call returns 0 in its first turn. *)
Theorem countEventsByT_before_first_gap
    (fuel : nat) (seed T minGap maxGap : Z) :
  minGap <= maxGap -> T < minGap ->
  countEventsByT (S fuel) seed T minGap maxGap = Some 0.
Proof.
  intros Hle HT. unfold countEventsByT. rewrite loop_S.
  pose proof (drawGap_range seed minGap maxGap Hle) as Hg.
  destruct (Z.gtb_spec (0 + fst (drawGap seed minGap maxGap)) T);
    [reflexivity | lia].
Qed.

Lemma countEventsByT_before_first_gap_witness :
  5 <= 60 /\ 4 < 5 /\ countEventsByT 1 2559132716 4 5 60 = Some 0.
Proof.
  split; [lia | split; [lia |]].
  apply (countEventsByT_before_first_gap 0 2559132716 4 5 60); lia.
Defined.

End CounterMore.

(** ** The variable of the generator is used modulo 2^32 *)

Module Rng32Facts.
Import JS JSFacts Rng Rng32.

Lemma ToInt32_congr (a b : Z) : ToUint32 a = ToUint32 b -> ToInt32 a = ToInt32 b.
Proof. unfold ToInt32, ToUint32. intros ->. reflexivity. Qed.

Lemma xor_congr_l (a b x : Z) : ToUint32 a = ToUint32 b -> xor a x = xor b x.
Proof. unfold xor. intros ->. reflexivity. Qed.

Lemma or_congr_l (a b x : Z) : ToUint32 a = ToUint32 b -> or a x = or b x.
Proof. unfold or. intros ->. reflexivity. Qed.

Lemma ushr_congr (a b n : Z) : ToUint32 a = ToUint32 b -> ushr a n = ushr b n.
Proof. unfold ushr. intros ->. reflexivity. Qed.

Lemma mulberry32_bits_wrapped (seed state : Z) :
  ToUint32 seed = ToUint32 state ->
  fst (mulberry32_bits seed) = fst (mulberry32_wrapped state)
  /\ ToUint32 (snd (mulberry32_bits seed))
     = ToUint32 (snd (mulberry32_wrapped state)).
Proof.
  intros H. unfold mulberry32_bits, mulberry32_wrapped. cbv zeta. cbn [fst snd].
  assert (E : ToUint32 (seed + 1831565813)
              = ToUint32 (ToUint32 (state + 1831565813))).
  { unfold ToUint32 in *.
    rewrite Z.mod_mod by (unfold two32; lia).
    rewrite <- (Z.add_mod_idemp_l seed), <- (Z.add_mod_idemp_l state)
      by (unfold two32; lia).
    rewrite H. reflexivity. }
  rewrite (xor_congr_l _ _ _ E), (ushr_congr _ _ _ E), (or_congr_l _ _ _ E).
  split; [reflexivity | exact E].
Qed.




End Rng32Facts.

(** ** Numbers as text *)

Module TextFacts.
Import JS Text.

(** *** Decimal numerals *)

Lemma digits_all_digit (d : Decimal.uint) : forallb is_digit (digits d) = true.
Proof. induction d; simpl; auto. Qed.

Lemma digits_inj (d : Decimal.uint) :
  forall d', digits d = digits d' -> d = d'.
Proof.
  induction d; intros d' H; destruct d'; simpl in H;
    try discriminate H; try reflexivity;
    injection H as H; f_equal; apply IHd; exact H.
Qed.

Lemma digits_N_nonempty (n : N) : digits (N.to_uint n) <> [].
Proof.
  destruct n as [| p]; [discriminate |].
  pose proof (DecimalPos.Unsigned.to_uint_nonnil p) as H.
  cbn [N.to_uint]. destruct (Pos.to_uint p); [contradiction | | | | | | | | | |];
    discriminate.
Qed.

Lemma Number_toString_nonneg (n : Z) :
  0 <= n -> Number_toString n = digits (N.to_uint (Z.to_N n)).
Proof.
  intros H. unfold Number_toString.
  destruct (Z.ltb_spec n 0); [lia | reflexivity].
Qed.

Lemma Number_toString_all_digit (n : Z) :
  0 <= n -> forallb is_digit (Number_toString n) = true.
Proof.
  intros H. rewrite Number_toString_nonneg by exact H. apply digits_all_digit.
Qed.

Lemma Number_toString_nonempty (n : Z) : Number_toString n <> [].
Proof.
  unfold Number_toString. destruct (n <? 0); [discriminate |].
  apply digits_N_nonempty.
Qed.

(** Different integers have different numerals. *)
Lemma Number_toString_inj (a b : Z) :
  Number_toString a = Number_toString b -> a = b.
Proof.
  unfold Number_toString.
  destruct (Z.ltb_spec a 0) as [Ha | Ha], (Z.ltb_spec b 0) as [Hb | Hb];
    intros H.
  - injection H as H. apply digits_inj, DecimalN.Unsigned.to_uint_inj in H.
    lia.
  - pose proof (digits_all_digit (N.to_uint (Z.to_N b))) as Hd.
    rewrite <- H in Hd. discriminate Hd.
  - pose proof (digits_all_digit (N.to_uint (Z.to_N a))) as Hd.
    rewrite H in Hd. discriminate Hd.
  - apply digits_inj, DecimalN.Unsigned.to_uint_inj in H. lia.
Qed.

Lemma all_from_spec (P : Z -> bool) (n : nat) :
  forall start, all_from P n start = true ->
  forall z, start <= z < start + Z.of_nat n -> P z = true.
Proof.
  induction n as [| n IH]; intros start H z Hz.
  - lia.
  - cbn [all_from] in H. apply andb_prop in H as [H0 H1].
    destruct (Z.eq_dec z start) as [-> | Hne]; [exact H0 |].
    apply (IH (start + 1) H1). lia.
Qed.

(** *** The pattern on runs of digits *)

Lemma is_digit_word (c : Z) : is_digit c = true -> is_word c = true.
Proof. intros H. unfold is_word. rewrite H. reflexivity. Qed.

(** On a run of digits [(\d{3})+(?!\d)] matches exactly when the run is not
    empty and its length is a multiple of three. *)
Lemma digitGroups_digits (n : nat) :
  forall s, (List.length s <= n)%nat -> forallb is_digit s = true ->
    digitGroups s
    = negb (List.length s =? 0)%nat && (List.length s mod 3 =? 0)%nat.
Proof.
  induction n as [| n IH]; intros s Hn Hs.
  - destruct s; [reflexivity | simpl in Hn; lia].
  - destruct s as [| d1 [| d2 [| d3 rest]]]; try reflexivity.
    cbn [forallb] in Hs.
    apply andb_prop in Hs as [H1 Hs]. apply andb_prop in Hs as [H2 Hs].
    apply andb_prop in Hs as [H3 Hs].
    cbn [digitGroups]. rewrite H1, H2, H3. cbn [andb].
    rewrite (IH rest) by (simpl in Hn; try lia; exact Hs).
    cbn [List.length].
    replace (S (S (S (List.length rest))) mod 3)%nat
      with (List.length rest mod 3)%nat.
    2:{ replace (S (S (S (List.length rest)))) with (List.length rest + 1 * 3)%nat
          by lia.
        symmetry. apply Nat.Div0.mod_add. }
    destruct rest as [| c rest']; [reflexivity |].
    cbn [forallb] in Hs. apply andb_prop in Hs as [Hc _].
    cbn [noDigitAhead List.length Nat.eqb negb andb]. rewrite Hc.
    cbn [negb]. apply orb_false_r.
Qed.

Lemma digitGroups_run (s : jsstring) :
  forallb is_digit s = true ->
  digitGroups s
  = negb (List.length s =? 0)%nat && (List.length s mod 3 =? 0)%nat.
Proof. apply (digitGroups_digits (List.length s)). apply Nat.le_refl. Qed.

Lemma separator_after_digit (p : Z) (s : jsstring) :
  is_digit p = true -> forallb is_digit s = true ->
  separatorHere (Some p) s = digitGroups s.
Proof.
  intros Hp Hs. unfold separatorHere, nonWordBoundary.
  destruct s as [| c rest]; [apply andb_false_r |].
  cbn [forallb] in Hs. apply andb_prop in Hs as [Hc _].
  cbn [hd_error word_at]. rewrite (is_digit_word p Hp), (is_digit_word c Hc).
  reflexivity.
Qed.

Lemma separator_at_start (s : jsstring) :
  forallb is_digit s = true -> separatorHere None s = false.
Proof.
  intros Hs. unfold separatorHere, nonWordBoundary.
  destruct s as [| c rest]; [reflexivity |].
  cbn [forallb] in Hs. apply andb_prop in Hs as [Hc _].
  cbn [hd_error word_at]. rewrite (is_digit_word c Hc). reflexivity.
Qed.

Lemma replaceSeparators_unfold (before : option Z) (s : jsstring) :
  replaceSeparators before s
  = (if separatorHere before s then [44] else [])
    ++ match s with
       | [] => []
       | c :: rest => c :: replaceSeparators (Some c) rest
       end.
Proof. destruct s; reflexivity. Qed.

(** Fewer than three digits after a digit: nothing is inserted. *)
Lemma replaceSeparators_short (s : jsstring) :
  forall p, is_digit p = true -> forallb is_digit s = true ->
    (List.length s < 3)%nat -> replaceSeparators (Some p) s = s.
Proof.
  induction s as [| c rest IH]; intros p Hp Hs Hlen.
  - rewrite replaceSeparators_unfold, separator_after_digit by assumption.
    reflexivity.
  - rewrite replaceSeparators_unfold, separator_after_digit by assumption.
    rewrite digitGroups_run by exact Hs.
    cbn [forallb] in Hs. apply andb_prop in Hs as [Hc Hrest].
    rewrite (IH c Hc Hrest) by (simpl in Hlen; lia).
    destruct rest as [| c2 [| c3 rest']]; try reflexivity.
    simpl in Hlen. lia.
Qed.

(** The last three digits are set off by a separator. *)
Lemma replaceSeparators_peel (a b : jsstring) :
  forallb is_digit b = true -> List.length b = 3%nat ->
  forall p, is_digit p = true -> forallb is_digit a = true ->
    replaceSeparators (Some p) (a ++ b)
    = replaceSeparators (Some p) a ++ 44 :: b.
Proof.
  intros Hb Hlen. induction a as [| c a IH]; intros p Hp Ha.
  - cbn [app]. rewrite (replaceSeparators_unfold _ b).
    rewrite separator_after_digit, digitGroups_run by assumption.
    rewrite Hlen.
    change (negb (3 =? 0)%nat && (3 mod 3 =? 0)%nat) with true. cbv iota.
    rewrite (replaceSeparators_short [] p Hp Ha) by (simpl; lia).
    destruct b as [| c rest]; [discriminate Hlen |].
    cbn [forallb] in Hb. apply andb_prop in Hb as [Hc Hrest].
    rewrite (replaceSeparators_short rest c Hc Hrest)
      by (simpl in Hlen; lia).
    reflexivity.
  - cbn [forallb] in Ha. apply andb_prop in Ha as [Hc Ha].
    assert (Hab : forallb is_digit ((c :: a) ++ b) = true).
    { rewrite forallb_app. cbn [forallb]. rewrite Hc, Ha, Hb. reflexivity. }
    assert (Hca : forallb is_digit (c :: a) = true).
    { cbn [forallb]. rewrite Hc, Ha. reflexivity. }
    rewrite (replaceSeparators_unfold _ ((c :: a) ++ b)),
            (replaceSeparators_unfold _ (c :: a)).
    rewrite !separator_after_digit, !digitGroups_run by assumption.
    rewrite length_app, Hlen.
    replace (List.length (c :: a) + 3)%nat
      with (List.length (c :: a) + 1 * 3)%nat by lia.
    rewrite Nat.Div0.mod_add.
    cbn [List.length Nat.add Nat.eqb negb andb app].
    rewrite (IH c Hc Ha).
    destruct (S (List.length a) mod 3 =? 0)%nat; reflexivity.
Qed.

(** Removing the separators undoes the replacement, on every string. *)
Lemma withoutSeparators_replace (s : jsstring) :
  forall before,
    withoutSeparators (replaceSeparators before s) = withoutSeparators s.
Proof.
  unfold withoutSeparators.
  induction s as [| c rest IH]; intros before;
    rewrite replaceSeparators_unfold, filter_app.
  - destruct (separatorHere before []); reflexivity.
  - cbn [filter]. rewrite (IH (Some c)).
    destruct (separatorHere before (c :: rest)); reflexivity.
Qed.

Lemma withoutSeparators_digits (s : jsstring) :
  forallb is_digit s = true -> withoutSeparators s = s.
Proof.
  unfold withoutSeparators. induction s as [| c rest IH]; intros Hs.
  - reflexivity.
  - cbn [forallb] in Hs. apply andb_prop in Hs as [Hc Hrest].
    cbn [filter]. unfold is_digit in Hc.
    destruct (Z.eqb_spec c 44) as [-> | _]; [discriminate Hc |].
    cbn [negb]. rewrite (IH Hrest). reflexivity.
Qed.

Lemma Number_toString_no_separator (n : Z) :
  withoutSeparators (Number_toString n) = Number_toString n.
Proof.
  unfold Number_toString. destruct (n <? 0).
  - unfold withoutSeparators. cbn [filter Z.eqb negb].
    fold (withoutSeparators (digits (N.to_uint (Z.to_N (- n))))).
    rewrite withoutSeparators_digits by apply digits_all_digit. reflexivity.
  - apply withoutSeparators_digits, digits_all_digit.
Qed.

(** X8. Taking the commas out of [formatNumber(n)] gives [n.toString()]
    back, for every integer [n] a number holds exactly, negative ones
    included: the replacement only inserts commas, it drops and reorders
    nothing. *)
Theorem formatNumber_without_separators (n : Z) :
  - 2 ^ 53 < n < 2 ^ 53 ->
  withoutSeparators (formatNumber n) = Number_toString n.
Proof.
  intros _. unfold formatNumber.
  rewrite withoutSeparators_replace. apply Number_toString_no_separator.
Qed.

Lemma formatNumber_without_separators_witness :
  - 2 ^ 53 < -1234567 < 2 ^ 53 /\
  withoutSeparators (formatNumber (-1234567)) = Number_toString (-1234567).
Proof.
  split; [lia |]. apply (formatNumber_without_separators (-1234567)). lia.
Defined.

Lemma Number_toString_below_1000 (n : Z) :
  0 <= n < 1000 -> (List.length (Number_toString n) <= 3)%nat.
Proof.
  intros H. apply Nat.leb_le.
  apply (all_from_spec
           (fun z => (List.length (Number_toString z) <=? 3)%nat) 1000 0);
    [vm_compute; reflexivity | lia].
Qed.

(** X9. A count below 1000 is shown as it is: [formatNumber(n)] is
    [n.toString()], without a comma. *)
Theorem formatNumber_below_1000 (n : Z) :
  0 <= n < 1000 -> formatNumber n = Number_toString n.
Proof.
  intros H. unfold formatNumber.
  pose proof (Number_toString_below_1000 n H) as Hlen.
  pose proof (Number_toString_all_digit n (proj1 H)) as Hd.
  destruct (Number_toString n) as [| c rest]; [reflexivity |].
  rewrite replaceSeparators_unfold, separator_at_start by exact Hd.
  cbn [forallb] in Hd. apply andb_prop in Hd as [Hc Hrest].
  rewrite (replaceSeparators_short rest c Hc Hrest) by (simpl in Hlen; lia).
  reflexivity.
Qed.

Lemma formatNumber_below_1000_witness :
  0 <= 121 < 1000 /\ formatNumber 121 = Number_toString 121.
Proof. split; [lia |]. apply (formatNumber_below_1000 121). lia. Defined.

(** X10. From 1000 on the last three digits are set off by a comma, and the
    digits before them are grouped in the same way: if [n.toString()] is
    [a] followed by three digits [b], with [a] not empty, then
    [formatNumber(n)] is the grouping of [a], a comma, and [b]. *)
Theorem formatNumber_thousands (n : Z) (a b : jsstring) :
  0 <= n < 2 ^ 53 ->
  Number_toString n = a ++ b -> a <> [] -> List.length b = 3%nat ->
  formatNumber n = replaceSeparators None a ++ 44 :: b.
Proof.
  intros [Hn _] Hs Ha Hlen. unfold formatNumber.
  pose proof (Number_toString_all_digit n Hn) as Hd. rewrite Hs in *.
  rewrite forallb_app in Hd. apply andb_prop in Hd as [Hda Hdb].
  destruct a as [| c a]; [contradiction |].
  rewrite (replaceSeparators_unfold None ((c :: a) ++ b)),
          (replaceSeparators_unfold None (c :: a)).
  rewrite !separator_at_start
    by (try rewrite forallb_app; try rewrite Hda; try rewrite Hdb; reflexivity).
  cbn [forallb] in Hda. apply andb_prop in Hda as [Hc Hda].
  cbn [app]. rewrite (replaceSeparators_peel a b Hdb Hlen c Hc Hda).
  reflexivity.
Qed.

Lemma formatNumber_thousands_witness :
  0 <= 86399 < 2 ^ 53 /\ Number_toString 86399 = of_string "86" ++ of_string "399"
  /\ of_string "86" <> [] /\ List.length (of_string "399") = 3%nat
  /\ formatNumber 86399
     = replaceSeparators None (of_string "86") ++ 44 :: of_string "399".
Proof.
  split; [lia |]. split; [reflexivity |]. split; [discriminate |].
  split; [reflexivity |].
  apply (formatNumber_thousands 86399 (of_string "86") (of_string "399"));
    [lia | reflexivity | discriminate | reflexivity].
Defined.

(** *** The date key *)

Lemma app_same_length_tail (A : Type) (a a' t t' : list A) :
  List.length t = List.length t' -> a ++ t = a' ++ t' -> a = a' /\ t = t'.
Proof.
  intros Hlen. revert a'.
  induction a as [| x a IH]; intros [| x' a'] H; cbn [app] in H.
  - split; [reflexivity | exact H].
  - apply (f_equal (@List.length A)) in H.
    cbn [List.length] in H. rewrite length_app in H. lia.
  - apply (f_equal (@List.length A)) in H.
    cbn [List.length] in H. rewrite length_app in H. lia.
  - injection H as -> H. destruct (IH a' H) as [-> ->].
    split; reflexivity.
Qed.

(** A number from 0 to 99 padded to two characters is two digits that read
    as the number. *)
Lemma padStart_two_digits (z : Z) :
  0 <= z <= 99 ->
  exists c1 c2,
    padStart (Number_toString z) 2 48 = [c1; c2]
    /\ is_digit c1 = true /\ is_digit c2 = true
    /\ twoDigitValue [c1; c2] = z.
Proof.
  intros H.
  pose proof (all_from_spec
    (fun z => let s := padStart (Number_toString z) 2 48 in
              (List.length s =? 2)%nat && forallb is_digit s
              && (twoDigitValue s =? z)) 100 0) as Hall.
  specialize (Hall ltac:(vm_compute; reflexivity) z ltac:(lia)).
  cbv zeta in Hall.
  apply andb_prop in Hall as [Hall Hv]. apply andb_prop in Hall as [Hl Hd].
  apply Nat.eqb_eq in Hl. apply Z.eqb_eq in Hv.
  destruct (padStart (Number_toString z) 2 48) as [| c1 [| c2 [| c3 r]]];
    try discriminate Hl.
  cbn [forallb] in Hd. apply andb_prop in Hd as [H1 Hd].
  apply andb_prop in Hd as [H2 _].
  exists c1, c2. repeat split; assumption.
Qed.

Lemma Number_toString_four_digits (y : Z) :
  1000 <= y <= 9999 -> List.length (Number_toString y) = 4%nat.
Proof.
  intros H. apply Nat.eqb_eq.
  apply (all_from_spec
           (fun z => (List.length (Number_toString z) =? 4)%nat)
           (Z.to_nat 9000) 1000);
    [vm_compute; reflexivity | lia].
Qed.

(** X11. [YYYY-MM-DD]: for a year of four digits, a month index from 0 to 11
    and a day from 1 to 31, the key has ten characters, four digits, a
    hyphen, two digits that read as the month counted from 1, a hyphen, and
    two digits that read as the day. *)
Theorem getLocalDateKey_shape (fullYear month date : Z) :
  1000 <= fullYear <= 9999 -> 0 <= month <= 11 -> 1 <= date <= 31 ->
  exists y1 y2 y3 y4 m1 m2 d1 d2,
    getLocalDateKey fullYear month date
    = [y1; y2; y3; y4; 45; m1; m2; 45; d1; d2]
    /\ [y1; y2; y3; y4] = Number_toString fullYear
    /\ forallb is_digit [y1; y2; y3; y4; m1; m2; d1; d2] = true
    /\ twoDigitValue [m1; m2] = month + 1
    /\ twoDigitValue [d1; d2] = date.
Proof.
  intros Hy Hm Hd. unfold getLocalDateKey. cbv zeta.
  pose proof (Number_toString_four_digits fullYear Hy) as Hlen.
  assert (Hyd : forallb is_digit (Number_toString fullYear) = true)
    by (apply Number_toString_all_digit; lia).
  destruct (Number_toString fullYear) as [| y1 [| y2 [| y3 [| y4 [| y5 r]]]]];
    try discriminate Hlen.
  destruct (padStart_two_digits (month + 1)) as (m1 & m2 & -> & Hm1 & Hm2 & Hmv);
    [lia |].
  destruct (padStart_two_digits date) as (d1 & d2 & -> & Hd1 & Hd2 & Hdv);
    [lia |].
  exists y1, y2, y3, y4, m1, m2, d1, d2.
  split; [reflexivity |]. split; [reflexivity |].
  split; [| split; assumption].
  cbn [forallb] in *. rewrite Hm1, Hm2, Hd1, Hd2.
  repeat (apply andb_prop in Hyd as [-> Hyd]). reflexivity.
Qed.

Lemma getLocalDateKey_shape_witness :
  1000 <= 2026 <= 9999 /\ 0 <= 0 <= 11 /\ 1 <= 15 <= 31 /\
  exists y1 y2 y3 y4 m1 m2 d1 d2,
    getLocalDateKey 2026 0 15
    = [y1; y2; y3; y4; 45; m1; m2; 45; d1; d2]
    /\ [y1; y2; y3; y4] = Number_toString 2026
    /\ forallb is_digit [y1; y2; y3; y4; m1; m2; d1; d2] = true
    /\ twoDigitValue [m1; m2] = 0 + 1
    /\ twoDigitValue [d1; d2] = 15.
Proof.
  split; [lia | split; [lia | split; [lia |]]].
  apply (getLocalDateKey_shape 2026 0 15); lia.
Defined.

(** X12. The key names the day: two dates (month index from 0 to 11, day
    from 1 to 31, any year) with the same key have the same year, month and
    day. *)
Theorem getLocalDateKey_inj (y m d y' m' d' : Z) :
  0 <= m <= 11 -> 1 <= d <= 31 -> 0 <= m' <= 11 -> 1 <= d' <= 31 ->
  getLocalDateKey y m d = getLocalDateKey y' m' d' ->
  y = y' /\ m = m' /\ d = d'.
Proof.
  intros Hm Hd Hm' Hd'. unfold getLocalDateKey. cbv zeta.
  destruct (padStart_two_digits (m + 1)) as (m1 & m2 & -> & _ & _ & Hmv);
    [lia |].
  destruct (padStart_two_digits d) as (d1 & d2 & -> & _ & _ & Hdv); [lia |].
  destruct (padStart_two_digits (m' + 1)) as (n1 & n2 & -> & _ & _ & Hmv');
    [lia |].
  destruct (padStart_two_digits d') as (e1 & e2 & -> & _ & _ & Hdv'); [lia |].
  intros H. apply app_same_length_tail in H; [| reflexivity].
  destruct H as [Hy Ht]. apply Number_toString_inj in Hy.
  cbn [app] in Ht. injection Ht as -> -> -> ->.
  rewrite Hmv' in Hmv. rewrite Hdv' in Hdv. lia.
Qed.

Lemma getLocalDateKey_inj_witness :
  0 <= 0 <= 11 /\ 1 <= 31 <= 31 /\ 0 <= 0 <= 11 /\ 1 <= 31 <= 31 /\
  getLocalDateKey 2026 0 31 = getLocalDateKey 2026 0 31 /\
  2026 = 2026 /\ 0 = 0 /\ 31 = 31.
Proof.
  split; [lia | split; [lia | split; [lia | split; [lia |]]]].
  split; [reflexivity |].
  apply (getLocalDateKey_inj 2026 0 31 2026 0 31); try lia. reflexivity.
Defined.

End TextFacts.

(** ** The counter on the page *)

Module PageFacts.
Import JS Counter CounterFacts CounterMore Text Page.

Lemma secondsSinceMidnight_mono (now1 now2 midnight : Z) :
  midnight <= now1 <= now2 ->
  0 <= secondsSinceMidnight now1 midnight
    <= secondsSinceMidnight now2 midnight.
Proof.
  intros H. unfold secondsSinceMidnight. split.
  - apply Z.div_pos; lia.
  - apply Z.div_le_mono; lia.
Qed.

Lemma countEventsByT_non_decreasing (seed T1 T2 minGap maxGap : Z) :
  1 <= minGap <= maxGap -> 0 <= T1 <= T2 ->
  exists c1 c2,
    countEventsByT (fuel_for T1) seed T1 minGap maxGap = Some c1
    /\ countEventsByT (fuel_for T2) seed T2 minGap maxGap = Some c2
    /\ c1 <= c2
    /\ c1 * minGap <= T1 < (c1 + 1) * maxGap
    /\ c2 * minGap <= T2 < (c2 + 1) * maxGap.
Proof.
  intros Hb HT.
  pose proof (positive_gaps_valid minGap maxGap Hb) as gaps.
  destruct (countEventsByT_returns seed T1 minGap maxGap (fuel_for T1) gaps)
    as [c1 H1]; [lia | apply Nat.le_refl |].
  destruct (countEventsByT_returns seed T2 minGap maxGap (fuel_for T2) gaps)
    as [c2 H2]; [lia | apply Nat.le_refl |].
  exists c1, c2. split; [exact H1 |]. split; [exact H2 |].
  unfold countEventsByT in H1, H2.
  pose proof (loop_mono_T _ _ _ _ _ _ _ T1 T2 _ _ (proj2 HT) H1 H2).
  pose proof (loop_minGap _ _ _ (proj2 Hb) _ _ _ _ _ H1).
  pose proof (loop_lower _ _ _ (proj2 Hb) _ _ _ _ _ H1).
  pose proof (loop_minGap _ _ _ (proj2 Hb) _ _ _ _ _ H2).
  pose proof (loop_lower _ _ _ (proj2 Hb) _ _ _ _ _ H2).
  lia.
Qed.

Lemma update_non_decreasing (dateKey : jsstring) (T1 T2 : Z) :
  0 <= T1 <= T2 ->
  exists c1 c2,
    update (fuel_for T1) dateKey T1 = Some c1
    /\ update (fuel_for T2) dateKey T2 = Some c2
    /\ c1 <= c2
    /\ T1 / 60 <= c1 <= T1 /\ T2 / 60 <= c2 <= T2.
Proof.
  intros HT.
  destruct (countEventsByT_non_decreasing
              (Hash.hashStringToSeed (counter_namespace ++ dateKey))
              T1 T2 MIN_GAP_SECONDS MAX_GAP_SECONDS)
    as (c1 & c2 & H1 & H2 & Hle & Hc1 & Hc2);
    [unfold MIN_GAP_SECONDS, MAX_GAP_SECONDS; lia | exact HT |].
  exists c1, c2. split; [exact H1 |]. split; [exact H2 |].
  clear H1 H2. unfold MIN_GAP_SECONDS, MAX_GAP_SECONDS in Hc1, Hc2.
  assert (T1 / 60 < c1 + 1) by (apply Z.div_lt_upper_bound; lia).
  assert (T2 / 60 < c2 + 1) by (apply Z.div_lt_upper_bound; lia).
  lia.
Qed.

(** X13. During a day the number shown never goes down: for two readings of
    the clock after the same midnight, in order, both updates return a count
    and the later count is at least the earlier one; a count lies between
    [T / 60] and [T] for the [T] whole seconds elapsed. *)
Theorem displayedCount_non_decreasing
    (fullYear month date midnight now1 now2 : Z) :
  midnight <= now1 <= now2 ->
  exists c1 c2,
    displayedCount (fuel_for (secondsSinceMidnight now1 midnight))
                   fullYear month date now1 midnight = Some c1
    /\ displayedCount (fuel_for (secondsSinceMidnight now2 midnight))
                      fullYear month date now2 midnight = Some c2
    /\ c1 <= c2
    /\ secondsSinceMidnight now1 midnight / 60 <= c1
       <= secondsSinceMidnight now1 midnight
    /\ secondsSinceMidnight now2 midnight / 60 <= c2
       <= secondsSinceMidnight now2 midnight.
Proof.
  intros H. unfold displayedCount. cbv zeta.
  apply update_non_decreasing.
  apply secondsSinceMidnight_mono. exact H.
Qed.

Lemma displayedCount_non_decreasing_witness :
  0 <= 60000 <= 90500 /\
  exists c1 c2,
    displayedCount (fuel_for (secondsSinceMidnight 60000 0))
                   2026 0 15 60000 0 = Some c1
    /\ displayedCount (fuel_for (secondsSinceMidnight 90500 0))
                      2026 0 15 90500 0 = Some c2
    /\ c1 <= c2
    /\ secondsSinceMidnight 60000 0 / 60 <= c1 <= secondsSinceMidnight 60000 0
    /\ secondsSinceMidnight 90500 0 / 60 <= c2 <= secondsSinceMidnight 90500 0.
Proof.
  split; [lia |].
  apply (displayedCount_non_decreasing 2026 0 15 0 60000 90500). lia.
Defined.

End PageFacts.

(** ** The feed *)

Module FeedFacts.
Import JS Text Feed.

(** *** Random integers and items *)

(** [floor(r * n)] for [r] in [0, 1) and an integer [n >= 0]. *)
Lemma floor_scaled (r : Q) (n : Z) :
  (0 <= r)%Q -> (r < 1)%Q -> 0 <= n ->
  0 <= Qfloor (r * inject_Z n) /\ (0 < n -> Qfloor (r * inject_Z n) < n)
  /\ (n = 0 -> Qfloor (r * inject_Z n) = 0).
Proof.
  destruct r as [a b]. unfold Qle, Qlt. cbn [Qnum Qden]. intros H0 H1 Hn.
  unfold Qfloor, Qmult, inject_Z. cbn [Qnum Qden]. rewrite Pos.mul_1_r.
  assert (Hb : 0 < Z.pos b) by lia.
  split; [apply Z.div_pos; nia |]. split.
  - intros Hpos. apply Z.div_lt_upper_bound; nia.
  - intros ->. rewrite Z.mul_0_r. reflexivity.
Qed.

Section Draws.
Variable random : nat -> Q.
Hypothesis random_unit : unit_interval random.

Lemma randInt_calls (min max : Z) (k : nat) :
  snd (randInt random min max k) = S k.
Proof. reflexivity. Qed.

Lemma randInt_in_range (min max : Z) (k : nat) :
  min <= max -> min <= fst (randInt random min max k) <= max.
Proof.
  intros H. unfold randInt, bind, nextRandom, ret. cbn [fst].
  destruct (random_unit k) as [H0 H1].
  destruct (floor_scaled (random k) (max - min + 1) H0 H1) as (Ha & Hb & _);
    lia.
Qed.

Lemma randomItem_calls (A : Type) (arr : list A) (k : nat) :
  snd (randomItem random arr k) = S k.
Proof. reflexivity. Qed.

Lemma randomItem_member (A : Type) (arr : list A) (k : nat) :
  arr <> [] ->
  exists x, fst (randomItem random arr k) = Some x /\ In x arr.
Proof.
  intros Hne. unfold randomItem, bind, nextRandom, ret. cbn [fst].
  destruct (random_unit k) as [H0 H1].
  destruct (floor_scaled (random k) (Z.of_nat (List.length arr)) H0 H1)
    as (Ha & Hb & _); [lia |].
  assert (Hlen : 0 < Z.of_nat (List.length arr))
    by (destruct arr; [contradiction | cbn [List.length]; lia]).
  specialize (Hb Hlen).
  set (i := Qfloor _) in *.
  destruct (Z.ltb_spec i 0); [lia |].
  destruct (nth_error arr (Z.to_nat i)) as [x |] eqn:E.
  - exists x. split; [reflexivity |]. apply (nth_error_In _ _ E).
  - apply nth_error_None in E. lia.
Qed.

End Draws.

Lemma randomItem_empty (random : nat -> Q) (A : Type) (k : nat) :
  fst (randomItem random (@nil A) k) = None.
Proof.
  unfold randomItem, bind, nextRandom, ret. cbn [fst List.length].
  destruct (_ <? 0); [reflexivity |]. apply nth_error_nil.
Qed.


Ltac unit_zero := intros ?; split; [apply Qle_refl | reflexivity].




(** *** Computations that draw *)

Lemma mapRand_cons (random : nat -> Q) (A B : Type) (f : A -> Rand B)
    (x : A) (rest : list A) (k : nat) :
  mapRand f (x :: rest) k
  = let (y, k1) := f x k in
    let (ys, k2) := mapRand f rest k1 in (y :: ys, k2).
Proof. reflexivity. Qed.

Lemma mapRand_Forall2 (A B : Type) (f : A -> Rand B) (R : A -> B -> Prop) :
  (forall x k, R x (fst (f x k))) ->
  forall arr k, Forall2 R arr (fst (mapRand f arr k)).
Proof.
  intros Hf. induction arr as [| x rest IH]; intros k.
  - constructor.
  - cbn [mapRand]. unfold bind, ret.
    pose proof (Hf x k) as Hx. destruct (f x k) as [y k1]. cbn [fst] in Hx.
    pose proof (IH k1) as Hrest. destruct (mapRand f rest k1) as [ys k2].
    cbn [fst] in *. constructor; assumption.
Qed.

(** *** The initial feed *)

Lemma Forall_perm (A : Type) (P : A -> Prop) (l l' : list A) :
  Permutation l l' -> Forall P l -> Forall P l'.
Proof.
  intros Hp H. rewrite Forall_forall in *. intros x Hx.
  apply H. apply (Permutation_in x (Permutation_sym Hp) Hx).
Qed.

Lemma insert_perm (x : FeedItem) (l : list FeedItem) :
  Permutation (insertBySecondsAgo x l) (x :: l).
Proof.
  induction l as [| y l IH]; cbn [insertBySecondsAgo].
  - apply Permutation_refl.
  - destruct (secondsAgo x <=? secondsAgo y).
    + apply Permutation_refl.
    + apply perm_trans with (y :: x :: l);
        [apply perm_skip, IH | apply perm_swap].
Qed.

Lemma sort_perm (l : list FeedItem) : Permutation (sortBySecondsAgo l) l.
Proof.
  induction l as [| x l IH]; cbn [sortBySecondsAgo fold_right].
  - apply Permutation_refl.
  - apply perm_trans with (x :: sortBySecondsAgo l);
      [apply insert_perm | apply perm_skip, IH].
Qed.

Lemma insert_sorted (x : FeedItem) (l : list FeedItem) :
  StronglySorted youngerFirst l ->
  StronglySorted youngerFirst (insertBySecondsAgo x l).
Proof.
  induction l as [| y l IH]; intros Hs; cbn [insertBySecondsAgo].
  - repeat constructor.
  - inversion Hs as [| ? ? Hl Hy]; subst.
    destruct (Z.leb_spec (secondsAgo x) (secondsAgo y)) as [Hle | Hgt].
    + constructor; [exact Hs |]. constructor; [exact Hle |].
      apply (Forall_impl (youngerFirst x)
               (fun a (Ha : youngerFirst y a) => Z.le_trans _ _ _ Hle Ha) Hy).
    + constructor; [apply IH, Hl |].
      apply (Forall_perm _ _ (x :: l));
        [apply Permutation_sym, insert_perm |].
      constructor; [unfold youngerFirst; lia | exact Hy].
Qed.

Lemma sort_sorted (l : list FeedItem) :
  StronglySorted youngerFirst (sortBySecondsAgo l).
Proof.
  induction l as [| x l IH]; cbn [sortBySecondsAgo fold_right].
  - constructor.
  - apply insert_sorted, IH.
Qed.

Lemma initialItems_S (random : nat -> Q) (n : nat) (i : Z) (k : nat) :
  initialItems random (S n) i k
  = (mkItem (of_string "seed-" ++ Number_toString i)
            (fst (randomItem random STATUSES k))
            (fst (randomItem random GOAL_SNIPPETS (S k)))
            (fst (randInt random 12 360 (S (S k))))
     :: fst (initialItems random n (i + 1) (S (S (S k)))),
     snd (initialItems random n (i + 1) (S (S (S k))))).
Proof.
  cbn [initialItems].
  cbv beta iota zeta delta [bind ret randomItem randInt nextRandom fst snd].
  destruct (initialItems random n (i + 1) (S (S (S k)))). reflexivity.
Qed.

Lemma initialItems_spec (random : nat -> Q) :
  unit_interval random ->
  forall n i k,
    Forall freshItem (fst (initialItems random n i k))
    /\ map id (fst (initialItems random n i k))
       = map (fun j => of_string "seed-" ++ Number_toString j)
             (map (fun d => i + Z.of_nat d) (seq 0 n)).
Proof.
  intros Hr. induction n as [| n IH]; intros i k.
  - split; [constructor | reflexivity].
  - rewrite initialItems_S. cbn [fst].
    destruct (randomItem_member random Hr Status STATUSES k)
      as (st & Est & Hst); [discriminate |].
    destruct (randomItem_member random Hr _ GOAL_SNIPPETS (S k))
      as (g & Eg & Hg); [discriminate |].
    pose proof (randInt_in_range random Hr 12 360 (S (S k))) as Hs.
    destruct (IH (i + 1) (S (S (S k)))) as [Hall Hids].
    split.
    + constructor; [| exact Hall].
      split; [apply Hs; lia |]. cbn [status goal].
      split; [exists st | exists g]; auto.
    + cbn [map seq id]. rewrite Hids. f_equal.
      * rewrite Z.add_0_r. reflexivity.
      * rewrite <- seq_shift, !map_map. apply map_ext. intros d.
        do 2 f_equal. lia.
Qed.



(** *** One turn of the feed *)

Lemma feedTick_eq (random : nat -> Q) (dateNow : Z) (prev : list FeedItem)
    (k : nat) :
  feedTick random dateNow prev k
  = if negb (Qle_bool (32 # 100) (random k)) then
      let item := mkItem (liveId dateNow)
                         (fst (randomItem random STATUSES (S k)))
                         (fst (randomItem random GOAL_SNIPPETS (S (S k))))
                         1 in
      let aged := mapRand (ageAfterArrival random item) (item :: prev)
                          (S (S (S k))) in
      (firstn 10 (fst aged), snd aged)
    else (map ageQuietly prev, S k).
Proof.
  unfold feedTick, liveId.
  cbv beta iota zeta delta [bind ret randomItem nextRandom fst snd].
  destruct (negb _); [| reflexivity].
  destruct (mapRand _ _ _). reflexivity.
Qed.

Lemma sameString_true (a b : jsstring) : sameString a b = true <-> a = b.
Proof.
  unfold sameString. destruct (list_eq_dec Z.eq_dec a b); split;
    congruence.
Qed.

Lemma ageAfterArrival_self (random : nat -> Q) (item : FeedItem) (k : nat) :
  ageAfterArrival random item item k = (withSecondsAgo item 1, k).
Proof.
  unfold ageAfterArrival.
  destruct (sameString (id item) (id item)) eqn:E; [reflexivity |].
  assert (H : sameString (id item) (id item) = true)
    by (apply sameString_true; reflexivity).
  congruence.
Qed.

Lemma ageAfterArrival_entry (random : nat -> Q) (item x : FeedItem)
    (k : nat) :
  entry (fst (ageAfterArrival random item x k)) = entry x.
Proof.
  unfold ageAfterArrival. destruct (sameString (id x) (id item));
    reflexivity.
Qed.

Lemma ageAfterArrival_other (random : nat -> Q) (item x : FeedItem)
    (k : nat) :
  unit_interval random -> id x <> id item ->
  agedBy 2 6 x (fst (ageAfterArrival random item x k)).
Proof.
  intros Hr Hne. unfold ageAfterArrival.
  destruct (sameString (id x) (id item)) eqn:E;
    [apply sameString_true in E; contradiction |].
  pose proof (randInt_in_range random Hr 2 6 k) as Hj.
  unfold bind, ret. destruct (randInt random 2 6 k) as [j k'].
  cbn [fst] in *. split; [reflexivity |].
  exists j. split; [apply Hj; lia | reflexivity].
Qed.

Lemma ageAfterArrival_shown (random : nat -> Q) (item x : FeedItem)
    (k : nat) :
  unit_interval random -> shown x ->
  shown (fst (ageAfterArrival random item x k)).
Proof.
  intros Hr (Hs & Hst & Hg). unfold ageAfterArrival.
  destruct (sameString (id x) (id item)).
  - repeat split; cbn; try lia; assumption.
  - pose proof (randInt_in_range random Hr 2 6 k) as Hj.
    unfold bind, ret. destruct (randInt random 2 6 k) as [j k'].
    cbn [fst] in *. repeat split; cbn; try lia; assumption.
Qed.

Lemma map_entry_Forall2 (l l' : list FeedItem) :
  Forall2 (fun x y => entry y = entry x) l l' -> map entry l' = map entry l.
Proof.
  induction 1 as [| x y l l' Hxy _ IH]; [reflexivity |].
  cbn [map]. rewrite Hxy, IH. reflexivity.
Qed.


(** *** What every turn keeps *)

Lemma Forall2_Forall (A B : Type) (P : A -> Prop) (Q : B -> Prop)
    (l : list A) (l' : list B) :
  Forall2 (fun x y => P x -> Q y) l l' -> Forall P l -> Forall Q l'.
Proof.
  induction 1 as [| x y l l' Hxy _ IH]; intros H; [constructor |].
  inversion H; subst. constructor; auto.
Qed.

Lemma Forall2_strengthen (A B : Type) (P : A -> Prop) (R : A -> B -> Prop)
    (l : list A) (l' : list B) :
  Forall2 (fun x y => P x -> R x y) l l' -> Forall P l -> Forall2 R l l'.
Proof.
  induction 1 as [| x y l l' Hxy _ IH]; intros H; [constructor |].
  inversion H; subst. constructor; auto.
Qed.

Lemma Forall_firstn_keep (A : Type) (P : A -> Prop) (n : nat) :
  forall l, Forall P l -> Forall P (firstn n l).
Proof.
  induction n as [| n IH]; intros l H; [constructor |].
  destruct H; [constructor |]. cbn [firstn]. constructor; auto.
Qed.

Lemma Forall2_firstn (A B : Type) (R : A -> B -> Prop) (n : nat) :
  forall l l', Forall2 R l l' -> Forall2 R (firstn n l) (firstn n l').
Proof.
  induction n as [| n IH]; intros l l' H; [constructor |].
  destruct H; [constructor |]. cbn [firstn]. constructor; auto.
Qed.

Lemma mapRand_length (A B : Type) (f : A -> Rand B) (arr : list A)
    (k : nat) :
  List.length (fst (mapRand f arr k)) = List.length arr.
Proof.
  pose proof (mapRand_Forall2 A B f (fun _ _ => True) (fun _ _ => I) arr k)
    as H.
  symmetry. induction H; [reflexivity |]. cbn [List.length]. congruence.
Qed.

Lemma feedTick_length (random : nat -> Q) (dateNow : Z)
    (prev : list FeedItem) (k : nat) :
  List.length (fst (feedTick random dateNow prev k))
  = if negb (Qle_bool (32 # 100) (random k))
    then Nat.min (S (List.length prev)) 10
    else List.length prev.
Proof.
  rewrite feedTick_eq. destruct (negb _).
  - cbv zeta. cbn [fst]. rewrite length_firstn, mapRand_length.
    cbn [List.length]. lia.
  - cbn [fst]. apply length_map.
Qed.

Lemma ageQuietly_shown (x : FeedItem) : shown x -> shown (ageQuietly x).
Proof.
  intros (Hs & Hst & Hg). unfold ageQuietly.
  repeat split; cbn; try lia; assumption.
Qed.

Lemma feedTick_shown (random : nat -> Q) (dateNow : Z)
    (prev : list FeedItem) (k : nat) :
  unit_interval random -> Forall shown prev ->
  Forall shown (fst (feedTick random dateNow prev k)).
Proof.
  intros Hr Hprev. rewrite feedTick_eq. destruct (negb _).
  - cbv zeta. cbn [fst]. apply Forall_firstn_keep.
    set (item := mkItem (liveId dateNow) _ _ 1).
    apply (Forall2_Forall _ _ shown shown (item :: prev)).
    + apply mapRand_Forall2. intros x k'.
      apply ageAfterArrival_shown. exact Hr.
    + constructor; [| exact Hprev]. unfold item, shown. cbn.
      split; [lia |]. split.
      * apply (randomItem_member random Hr Status STATUSES (S k)).
        discriminate.
      * apply (randomItem_member random Hr _ GOAL_SNIPPETS (S (S k))).
        discriminate.
  - cbn [fst]. apply Forall_forall. intros y Hy.
    apply in_map_iff in Hy as (x & <- & Hx).
    apply ageQuietly_shown. rewrite Forall_forall in Hprev. auto.
Qed.

Lemma feedAfter_keeps (random : nat -> Q) (dateNows : list Z) :
  unit_interval random ->
  forall feed k,
    (8 <= List.length feed <= 10)%nat -> Forall shown feed ->
    (8 <= List.length (fst (feedAfter random dateNows feed k)) <= 10)%nat
    /\ Forall shown (fst (feedAfter random dateNows feed k)).
Proof.
  intros Hr. induction dateNows as [| dateNow later IH]; intros feed k Hl Hs.
  - split; assumption.
  - cbn [feedAfter]. unfold bind.
    pose proof (feedTick_length random dateNow feed k) as Hlen.
    pose proof (feedTick_shown random dateNow feed k Hr Hs) as Hshown.
    destruct (feedTick random dateNow feed k) as [next k'].
    cbn [fst] in *. apply IH; [| exact Hshown].
    destruct (negb _) in Hlen; lia.
Qed.

Lemma freshItem_shown (x : FeedItem) : freshItem x -> shown x.
Proof. intros (Hs & Hst & Hg). repeat split; try lia; assumption. Qed.





End FeedFacts.
